(** * Paint Touch Tracker backend: the sync and export contract

    A shallow embedding of [backend/main.py] (a FastAPI service over an
    embedded SQLite store) and the properties of its handlers:
    [create_game], [add_possessions], [sync], [list_games] and
    [export_csv].

    Modelling decisions.
    - Python [int] is [Z], [Optional[T]] is [option T].  A [str] is the
      [string] of the bytes of its UTF-8 encoding.
    - An [int] bound to a statement must fit SQLite's signed 64-bit
      [INTEGER]; [conn.execute] raises [OverflowError] otherwise, before
      the engine sees the statement.
    - The values of the response headers are encoded as Latin-1 when a
      [StreamingResponse] is built, which raises [UnicodeEncodeError] for
      a character outside Latin-1.
    - The two tables are lists of rows in rowid order.  The constraints of
      the schema created by [init_db] are part of the statements that
      write: [UNIQUE] on [games.client_id] makes a plain [INSERT] raise
      [IntegrityError], [UNIQUE] on [possessions.client_id] makes
      [INSERT OR IGNORE] skip the row.  Foreign keys are not enforced by
      the engine (SQLite's default), the handlers check the game
      themselves.
    - The [id] column of [possessions] is never read or written by any
      handler, so possession rows are modelled without it.
    - Every [with get_conn() as conn] block is a transaction over a working
      copy of the store: committed when the block ends normally, rolled
      back when it raises.
    - [datetime.utcnow().isoformat()] is an input [now] of the handler.
    - Every [conn.execute] may raise for reasons outside the program (disk,
      locking).  The database carries a budget of statements the engine
      still serves; [None] is an engine that never fails. *)

From Stdlib Require Import ZArith List String Ascii Bool Lia.
From Stdlib Require Import Permutation Sorted DecimalString OrderedTypeEx.
Import ListNotations.

Local Open Scope Z_scope.

(** ** Request and response models *)

Module GameIn.
Record t := mk
  { client_id : string;
    name : string;
    opponent : option string;
    game_date : string }.
End GameIn.

Module PossessionIn.
Record t := mk
  { client_id : string;
    number : Z;
    quarter : Z;
    paint_touch : bool;
    outcome : string;
    points : option Z;
    notes : option string;
    timestamp : string }.
End PossessionIn.

Module SyncPayload.
Record t := mk
  { game : GameIn.t;
    possessions : list PossessionIn.t }.
End SyncPayload.

(** [{"id": ..., "created": ...}] *)
Record GameResponse := mkGameResponse
  { resp_id : Z; resp_created : bool }.

(** [{"game_id": ..., "created": ..., "inserted_possessions": ...}] *)
Record SyncResponse := mkSyncResponse
  { game_id : Z; created : bool; inserted_possessions : Z }.

(** ** Tables *)

Module GameRow.
Record t := mk
  { id : Z;
    client_id : string;
    name : string;
    opponent : option string;
    game_date : string;
    created_at : string }.
End GameRow.

Module PossessionRow.
Record t := mk
  { client_id : string;
    game_id : Z;
    number : Z;
    quarter : Z;
    paint_touch : Z;
    outcome : string;
    points : option Z;
    notes : option string;
    timestamp : string }.
End PossessionRow.

(** The persisted state: both tables and the [sqlite_sequence] entry of
    [games] ([id INTEGER PRIMARY KEY AUTOINCREMENT]). *)
Record Store := mkStore
  { tbl_games : list GameRow.t;
    seq_games : Z;
    tbl_possessions : list PossessionRow.t }.

(** What [init_db] leaves on a new file. *)
Definition empty_store : Store :=
  {| tbl_games := []; seq_games := 0; tbl_possessions := [] |}.

(** ** Exceptions, connections and transactions *)

Inductive Exn :=
| HTTPException (status_code : Z) (detail : string)
| IntegrityError (message : string)
| OperationalError
| OverflowError
| UnicodeEncodeError.

Inductive Result (A : Type) :=
| Ok (a : A)
| Raise (e : Exn).
Arguments Ok {A} a.
Arguments Raise {A} e.

(** The database file together with the engine's fault budget. *)
Record Database := mkDatabase
  { disk : Store;
    faults : option nat }.

(** A database whose engine never fails. *)
Definition online (s : Store) : Database :=
  {| disk := s; faults := None |}.

(** A connection: the working copy of the store, the rowid of the last
    successful [INSERT] on this connection and the engine's budget. *)
Record Conn := mkConn
  { work : Store;
    last_insert_rowid : Z;
    engine : option nat }.

Definition get_conn (db : Database) : Conn :=
  {| work := disk db; last_insert_rowid := 0; engine := faults db |}.

(** Computations that read and write a state [S] and may raise.  The state
    is kept when they raise: the caller decides what to do with it. *)
Definition M (S A : Type) : Type := S -> Result A * S.

Definition ret {S A} (a : A) : M S A := fun s => (Ok a, s).

Definition raise {S A} (e : Exn) : M S A := fun s => (Raise e, s).

Definition bind {S A B} (m : M S A) (k : A -> M S B) : M S B :=
  fun s =>
    match m s with
    | (Ok a, s') => k a s'
    | (Raise e, s') => (Raise e, s')
    end.

Declare Scope tx_scope.
Delimit Scope tx_scope with tx.
Notation "x <- m ;; k" := (bind m (fun x => k))
  (at level 61, m at next level, right associativity) : tx_scope.
Notation "m ;; k" := (bind m (fun _ => k))
  (at level 61, right associativity) : tx_scope.
Local Open Scope tx_scope.

(** Statements run on a connection, handlers on the database. *)
Definition Tx (A : Type) : Type := M Conn A.
Definition Handler (A : Type) : Type := M Database A.

(** [conn.execute(...)]: the engine serves the statement if its budget
    allows, and the statement itself may raise. *)
Definition execute {A} (stmt : Store -> Z -> Result (A * Store * Z)) : Tx A :=
  fun c =>
    match engine c with
    | Some O => (Raise OperationalError, c)
    | b =>
        let c1 := {| work := work c;
                     last_insert_rowid := last_insert_rowid c;
                     engine := option_map Nat.pred b |} in
        match stmt (work c) (last_insert_rowid c) with
        | Ok (a, st, rid) =>
            (Ok a, {| work := st; last_insert_rowid := rid;
                      engine := engine c1 |})
        | Raise e => (Raise e, c1)
        end
    end.

(** A Python [int] that SQLite can take as an [INTEGER]. *)
Definition sqlite_int (n : Z) : bool :=
  (- 2 ^ 63 <=? n) && (n <=? 2 ^ 63 - 1).

(** [conn.execute(sql, parameters)] with integers among the parameters:
    they are bound before the statement runs, and an integer outside
    signed 64 bits raises [OverflowError] there, the statement not run. *)
Definition execute_with {A} (ints : list Z)
    (stmt : Store -> Z -> Result (A * Store * Z)) : Tx A :=
  fun c =>
    if forallb sqlite_int ints
    then execute stmt c
    else (Raise OverflowError, c).

(** Leaving a [with get_conn() as conn] block: commit when the body
    returned, roll back when it raised. *)
Definition exit_conn {A} (db : Database) (outcome : Result A * Conn)
    : Result A * Database :=
  match outcome with
  | (Ok a, c) => (Ok a, {| disk := work c; faults := engine c |})
  | (Raise e, c) => (Raise e, {| disk := disk db; faults := engine c |})
  end.

(** [with get_conn() as conn: body] *)
Definition with_conn {A} (body : Tx A) : Handler A :=
  fun db => exit_conn db (body (get_conn db)).

(** ** The SQL statements of the handlers *)

Definition game_has_client_id (cid : string) (r : GameRow.t) : bool :=
  String.eqb (GameRow.client_id r) cid.

Definition game_has_id (gid : Z) (r : GameRow.t) : bool :=
  GameRow.id r =? gid.

Definition possession_has_client_id (cid : string) (r : PossessionRow.t) : bool :=
  String.eqb (PossessionRow.client_id r) cid.

(** [ORDER BY]: a stable insertion sort on the given order. *)
Fixpoint insert_by {A} (le : A -> A -> bool) (x : A) (l : list A) : list A :=
  match l with
  | [] => [x]
  | y :: l' => if le x y then x :: l else y :: insert_by le x l'
  end.

Definition order_by {A} (le : A -> A -> bool) (l : list A) : list A :=
  fold_right (insert_by le) [] l.

(** Largest rowid in use; [AUTOINCREMENT] hands out one more than the
    largest rowid the table ever had. *)
Definition max_rowid (rows : list GameRow.t) : Z :=
  fold_right Z.max 0 (map GameRow.id rows).

Definition next_game_id (st : Store) : Z :=
  Z.max (seq_games st) (max_rowid (tbl_games st)) + 1.

(** [SELECT id FROM games WHERE client_id = ?], [fetchone()]. *)
Definition select_game_id_by_client_id (cid : string) : Tx (option Z) :=
  execute (fun st rid =>
    Ok (option_map GameRow.id (find (game_has_client_id cid) (tbl_games st)),
        st, rid)).

(** [INSERT INTO games (client_id, name, opponent, game_date, created_at)
    VALUES (?, ?, ?, ?, ?)]. *)
Definition insert_game (cid name : string) (opponent : option string)
    (game_date created_at : string) : Tx unit :=
  execute (fun st rid =>
    if existsb (game_has_client_id cid) (tbl_games st)
    then Raise (IntegrityError "UNIQUE constraint failed: games.client_id")
    else
      let new_id := next_game_id st in
      Ok (tt,
          {| tbl_games :=
               tbl_games st ++
               [ {| GameRow.id := new_id;
                    GameRow.client_id := cid;
                    GameRow.name := name;
                    GameRow.opponent := opponent;
                    GameRow.game_date := game_date;
                    GameRow.created_at := created_at |} ];
             seq_games := new_id;
             tbl_possessions := tbl_possessions st |},
          new_id)).

(** [SELECT last_insert_rowid()]. *)
Definition select_last_insert_rowid : Tx Z :=
  execute (fun st rid => Ok (rid, st, rid)).

(** [SELECT id FROM games WHERE id = ?], [fetchone()]. *)
Definition select_game_id_by_id (gid : Z) : Tx (option Z) :=
  execute_with [gid] (fun st rid =>
    Ok (option_map GameRow.id (find (game_has_id gid) (tbl_games st)),
        st, rid)).

(** [SELECT * FROM games WHERE id = ?], [fetchone()]. *)
Definition select_game_by_id (gid : Z) : Tx (option GameRow.t) :=
  execute_with [gid]
    (fun st rid => Ok (find (game_has_id gid) (tbl_games st), st, rid)).

(** [SELECT * FROM games ORDER BY created_at DESC], [fetchall()].  Text is
    compared bytewise. *)
Definition created_at_desc (a b : GameRow.t) : bool :=
  String.leb (GameRow.created_at b) (GameRow.created_at a).

Definition select_games_by_created_at_desc : Tx (list GameRow.t) :=
  execute (fun st rid => Ok (order_by created_at_desc (tbl_games st), st, rid)).

(** The integers among the parameters of the insert. *)
Definition row_ints (row : PossessionRow.t) : list Z :=
  [ PossessionRow.game_id row; PossessionRow.number row;
    PossessionRow.quarter row; PossessionRow.paint_touch row ] ++
  match PossessionRow.points row with
  | Some points => [points]
  | None => []
  end.

(** [INSERT OR IGNORE INTO possessions (...) VALUES (...)]; the result is
    [cursor.rowcount]. *)
Definition insert_or_ignore_possession (row : PossessionRow.t) : Tx Z :=
  execute_with (row_ints row) (fun st rid =>
    if existsb (possession_has_client_id (PossessionRow.client_id row))
               (tbl_possessions st)
    then Ok (0, st, rid)
    else
      Ok (1,
          {| tbl_games := tbl_games st;
             seq_games := seq_games st;
             tbl_possessions := tbl_possessions st ++ [row] |},
          rid)).

(** [SELECT number, quarter, paint_touch, points, outcome, notes, timestamp
    FROM possessions WHERE game_id = ? ORDER BY number ASC], [fetchall()]. *)
Definition number_asc (a b : PossessionRow.t) : bool :=
  PossessionRow.number a <=? PossessionRow.number b.

Definition possession_of_game (gid : Z) (r : PossessionRow.t) : bool :=
  PossessionRow.game_id r =? gid.

Definition select_possessions_by_number (gid : Z) : Tx (list PossessionRow.t) :=
  execute_with [gid] (fun st rid =>
    Ok (order_by number_asc (filter (possession_of_game gid) (tbl_possessions st)),
        st, rid)).

(** ** Handlers *)

(** [GET /games] *)
Definition list_games : Handler (list GameRow.t) :=
  with_conn (
    rows <- select_games_by_created_at_desc ;;
    ret rows).

(** [POST /games], from the test on [existing] to the end. *)
Definition create_game_after_lookup (game : GameIn.t) (now : string)
    (existing : option Z) : Tx GameResponse :=
  match existing with
  | Some existing_id =>
      ret {| resp_id := existing_id; resp_created := false |}
  | None =>
      insert_game (GameIn.client_id game) (GameIn.name game)
                  (GameIn.opponent game) (GameIn.game_date game) now ;;
      game_id <- select_last_insert_rowid ;;
      ret {| resp_id := game_id; resp_created := true |}
  end.

(** [POST /games] *)
Definition create_game (game : GameIn.t) (now : string) : Handler GameResponse :=
  with_conn (
    existing <- select_game_id_by_client_id (GameIn.client_id game) ;;
    create_game_after_lookup game now existing).

(** The row bound to the [INSERT] of [add_possessions]. *)
Definition possession_row (game_id : Z) (possession : PossessionIn.t)
    : PossessionRow.t :=
  {| PossessionRow.client_id := PossessionIn.client_id possession;
     PossessionRow.game_id := game_id;
     PossessionRow.number := PossessionIn.number possession;
     PossessionRow.quarter := PossessionIn.quarter possession;
     PossessionRow.paint_touch :=
       if PossessionIn.paint_touch possession then 1 else 0;
     PossessionRow.outcome := PossessionIn.outcome possession;
     PossessionRow.points := PossessionIn.points possession;
     PossessionRow.notes := PossessionIn.notes possession;
     PossessionRow.timestamp := PossessionIn.timestamp possession |}.

(** The [for possession in possessions] loop with its counter. *)
Fixpoint insert_loop (game_id : Z) (possessions : list PossessionIn.t)
    (inserted : Z) : Tx Z :=
  match possessions with
  | [] => ret inserted
  | possession :: rest =>
      rowcount <- insert_or_ignore_possession (possession_row game_id possession) ;;
      insert_loop game_id rest
                  (if rowcount =? 0 then inserted else inserted + 1)
  end.

(** [POST /games/{game_id}/possessions], from the test on [game] to the
    end of the loop. *)
Definition add_possessions_after_lookup (game_id : Z)
    (possessions : list PossessionIn.t) (game : option Z) : Tx Z :=
  match game with
  | None => raise (HTTPException 404 "Game not found")
  | Some _ => insert_loop game_id possessions 0
  end.

(** [POST /games/{game_id}/possessions]; the result is the [inserted]
    field of the response. *)
Definition add_possessions (game_id : Z) (possessions : list PossessionIn.t)
    : Handler Z :=
  match possessions with
  | [] => ret 0
  | _ :: _ =>
      with_conn (
        game <- select_game_id_by_id game_id ;;
        add_possessions_after_lookup game_id possessions game)
  end.

(** [POST /sync] *)
Definition sync (payload : SyncPayload.t) (now : string) : Handler SyncResponse :=
  game_response <- create_game (SyncPayload.game payload) now ;;
  let game_id := resp_id game_response in
  result <- add_possessions game_id (SyncPayload.possessions payload) ;;
  ret {| game_id := game_id;
         created := resp_created game_response;
         inserted_possessions := result |}.

(** ** CSV export *)

Definition comma : ascii := ascii_of_nat 44.
Definition dquote : ascii := ascii_of_nat 34.
Definition cr : ascii := ascii_of_nat 13.
Definition lf : ascii := ascii_of_nat 10.

(** The line terminator of the [excel] dialect. *)
Definition crlf : string := String cr (String lf EmptyString).

(** [str(n)] for a Python [int]. *)
Definition str_of_int (n : Z) : string := NilZero.string_of_int (Z.to_int n).

(** [csv.writer] with the default dialect: [QUOTE_MINIMAL] quotes a field
    that holds the delimiter, the quote character or a character of the
    line terminator, and doubles the quote characters inside it. *)
Definition special (c : ascii) : bool :=
  Ascii.eqb c comma || Ascii.eqb c dquote || Ascii.eqb c cr || Ascii.eqb c lf.

Fixpoint has_special (s : string) : bool :=
  match s with
  | EmptyString => false
  | String c s' => special c || has_special s'
  end.

Fixpoint double_quotes (s : string) : string :=
  match s with
  | EmptyString => EmptyString
  | String c s' =>
      if Ascii.eqb c dquote
      then String dquote (String dquote (double_quotes s'))
      else String c (double_quotes s')
  end.

Definition csv_field (s : string) : string :=
  if has_special s
  then String dquote (double_quotes s ++ String dquote EmptyString)
  else s.

Fixpoint join (sep : string) (fields : list string) : string :=
  match fields with
  | [] => EmptyString
  | [f] => f
  | f :: rest => f ++ sep ++ join sep rest
  end.

(** [writer.writerow(fields)]: the text appended to the output.  A row
    made of one empty field is written as a pair of quotes. *)
Definition writerow (fields : list string) : string :=
  match fields with
  | [f] =>
      match f with
      | EmptyString => String dquote (String dquote EmptyString)
      | _ => csv_field f
      end ++ crlf
  | _ => join (String comma EmptyString) (map csv_field fields) ++ crlf
  end.

Definition csv_header : list string :=
  [ "possession_number"; "quarter"; "paint_touch"; "points"; "outcome";
    "notes"; "timestamp" ]%string.

(** The list passed to [writer.writerow] for one selected row. *)
Definition csv_record (row : PossessionRow.t) : list string :=
  [ str_of_int (PossessionRow.number row);
    str_of_int (PossessionRow.quarter row);
    if PossessionRow.paint_touch row =? 0 then "no"%string else "yes"%string;
    match PossessionRow.points row with
    | Some p => str_of_int p
    | None => EmptyString
    end;
    PossessionRow.outcome row;
    match PossessionRow.notes row with
    | Some n => n
    | None => EmptyString
    end;
    PossessionRow.timestamp row ].

(** [s.replace(' ', '_')] *)
Fixpoint replace_spaces (s : string) : string :=
  match s with
  | EmptyString => EmptyString
  | String c s' =>
      String (if Ascii.eqb c " " then "_" else c)%char (replace_spaces s')
  end.

(** The text collected in the [io.StringIO] by successive writes. *)
Definition written (chunks : list string) : string :=
  fold_right String.append EmptyString chunks.

(** The [StreamingResponse]: its body, media type and
    [Content-Disposition] header. *)
Record CsvResponse := mkCsvResponse
  { body : string;
    media_type : string;
    content_disposition : string }.

(** [v.encode("latin-1")] succeeds when every code point is below 256:
    no byte of the UTF-8 encoding is [0xC4] or above. *)
Fixpoint latin1 (s : string) : bool :=
  match s with
  | EmptyString => true
  | String c s' => (nat_of_ascii c <? 196)%nat && latin1 s'
  end.

(** [StreamingResponse(content, media_type=..., headers=...)] with a
    [Content-Disposition] header. *)
Definition StreamingResponse {S} (content media_type disposition : string)
    : M S CsvResponse :=
  if latin1 disposition
  then ret {| body := content;
              media_type := media_type;
              content_disposition := disposition |}
  else raise UnicodeEncodeError.

(** [GET /games/{game_id}/possessions.csv] *)
Definition export_csv (game_id : Z) : Handler CsvResponse :=
  found <- with_conn (
    game <- select_game_by_id game_id ;;
    match game with
    | None => raise (HTTPException 404 "Game not found")
    | Some game =>
        rows <- select_possessions_by_number game_id ;;
        ret (game, rows)
    end) ;;
  let '(game, rows) := found in
  let output :=
    written (writerow csv_header
             :: map (fun row => writerow (csv_record row)) rows) in
  let filename :=
    (replace_spaces (GameRow.name game) ++ "_" ++ GameRow.game_date game ++ ".csv")%string in
  StreamingResponse output "text/csv"
    ("attachment; filename=" ++ filename)%string.

(** ** Two requests at once

    The handlers run in a thread pool, each request on its own connection.
    A connection that has no transaction open reads the database as it is
    committed when the statement runs. *)
Definition refresh (c : Conn) (db : Database) : Conn :=
  {| work := disk db;
     last_insert_rowid := last_insert_rowid c;
     engine := engine c |}.

(** A request goes on after a statement of its connection has answered. *)
Definition resume {A B} (answer : Result A * Conn) (k : A -> Tx B)
    : Result B * Conn :=
  match answer with
  | (Ok a, c) => k a c
  | (Raise e, c) => (Raise e, c)
  end.

(** Two [create_game] requests, [a] and [b], in this order of statements:
    the lookup of [a], the lookup of [b], the rest of [a] with its commit,
    the rest of [b].  The result is the outcome of each request and the
    database they leave. *)
Definition create_game_race (game_a game_b : GameIn.t) (now_a now_b : string)
    (db : Database) : Result GameResponse * Result GameResponse * Database :=
  let lookup_a := select_game_id_by_client_id (GameIn.client_id game_a) (get_conn db) in
  let lookup_b := select_game_id_by_client_id (GameIn.client_id game_b) (get_conn db) in
  let '(response_a, db_a) :=
    exit_conn db (resume lookup_a (create_game_after_lookup game_a now_a)) in
  let '(response_b, db_b) :=
    exit_conn db_a
      (resume (fst lookup_b, refresh (snd lookup_b) db_a)
              (create_game_after_lookup game_b now_b)) in
  (response_a, response_b, db_b).


(** ** Specification vocabulary *)

(** A game with this client identifier is in the table. *)
Definition game_stored (cid : string) (s : Store) : bool :=
  existsb (game_has_client_id cid) (tbl_games s).

(** A game with this server identifier is in the table. *)
Definition game_exists (gid : Z) (s : Store) : bool :=
  existsb (game_has_id gid) (tbl_games s).

(** A possession with this client identifier is in the table. *)
Definition possession_stored (cid : string) (s : Store) : bool :=
  existsb (possession_has_client_id cid) (tbl_possessions s).


(** The row [create_game] writes for a payload. *)
Definition game_row (gid : Z) (game : GameIn.t) (now : string) : GameRow.t :=
  {| GameRow.id := gid;
     GameRow.client_id := GameIn.client_id game;
     GameRow.name := GameIn.name game;
     GameRow.opponent := GameIn.opponent game;
     GameRow.game_date := GameIn.game_date game;
     GameRow.created_at := now |}.

(** The client identifiers of the stored possessions. *)
Definition stored_client_ids (s : Store) : list string :=
  map PossessionRow.client_id (tbl_possessions s).

(** The entries of a submitted list that are first to carry their client
    identifier: it is not among [seen] and no earlier entry has it. *)
Fixpoint first_occurrences (seen : list string) (ps : list PossessionIn.t)
    : list PossessionIn.t :=
  match ps with
  | [] => []
  | p :: rest =>
      if in_dec string_dec (PossessionIn.client_id p) seen
      then first_occurrences seen rest
      else p :: first_occurrences (PossessionIn.client_id p :: seen) rest
  end.

(** The entries of a submitted list whose client identifier is not stored
    yet when their turn comes. *)
Definition new_entries (s : Store) (ps : list PossessionIn.t)
    : list PossessionIn.t :=
  first_occurrences (stored_client_ids s) ps.

(** The store with rows appended to [possessions]. *)
Definition with_possessions (s : Store) (rows : list PossessionRow.t) : Store :=
  {| tbl_games := tbl_games s;
     seq_games := seq_games s;
     tbl_possessions := tbl_possessions s ++ rows |}.


(** The relation decided by a boolean order. *)
Definition holds {A} (le : A -> A -> bool) (a b : A) : Prop := le a b = true.

(** The row [a] was created no earlier than the row [b]. *)
Definition not_older (a b : GameRow.t) : Prop :=
  String.leb (GameRow.created_at b) (GameRow.created_at a) = true.








(** The name and the date of a game can go into a response header. *)
Definition exportable (g : GameRow.t) : bool :=
  latin1 (GameRow.name g) && latin1 (GameRow.game_date g).

(** ** Scenarios *)

(** The scenario of the specification. *)
Definition home_opener : GameIn.t :=
  GameIn.mk "g1" "Home Opener" (Some "Rivals"%string) "2024-01-10".

Definition first_possession : PossessionIn.t :=
  PossessionIn.mk "p1" 1 1 true "make" (Some 2) None "t1".

Definition second_possession : PossessionIn.t :=
  PossessionIn.mk "p2" 2 1 false "miss" None (Some "late clock"%string) "t2".

Definition third_possession : PossessionIn.t :=
  PossessionIn.mk "p3" 3 2 true "turnover" (Some 0) None "t3".

Definition fourth_possession : PossessionIn.t :=
  PossessionIn.mk "p4" 4 2 true "miss" None None "t4".

(** The store after the game of the scenario was created. *)
Definition opener_store : Store :=
  {| tbl_games := [game_row 1 home_opener "2024-01-10T19:00:00"];
     seq_games := 1;
     tbl_possessions := [] |}.




(** The game of the scenario with two possessions. *)
Definition opener_payload : SyncPayload.t :=
  SyncPayload.mk home_opener [first_possession; second_possession].

(** The game of the scenario with four possessions, stored in another
    order than their sequence numbers. *)
Definition recorded_store : Store :=
  {| tbl_games := tbl_games opener_store;
     seq_games := seq_games opener_store;
     tbl_possessions :=
       map (possession_row 1)
         [third_possession; first_possession; fourth_possession;
          second_possession] |}.

(** ** The routes and the rest of the module *)

(** [GET /health]: [{"status": "ok", "time": ...}]. *)
Definition health (now : string) : Handler (string * string) :=
  ret ("ok"%string, now).

(** A request as the decorators of the module route it. *)
Inductive Request :=
| GetHealth
| GetGames
| PostGames (game : GameIn.t)
| PostPossessions (game_id : Z) (possessions : list PossessionIn.t)
| PostSync (payload : SyncPayload.t)
| GetPossessionsCsv (game_id : Z).

Inductive Response :=
| HealthBody (body : string * string)
| GamesBody (rows : list GameRow.t)
| GameBody (response : GameResponse)
| InsertedBody (inserted : Z)
| SyncBody (response : SyncResponse)
| CsvBody (response : CsvResponse).

(** One request served at clock reading [now]. *)
Definition route (now : string) (request : Request) : Handler Response :=
  match request with
  | GetHealth => r <- health now ;; ret (HealthBody r)
  | GetGames => r <- list_games ;; ret (GamesBody r)
  | PostGames game => r <- create_game game now ;; ret (GameBody r)
  | PostPossessions game_id possessions =>
      r <- add_possessions game_id possessions ;; ret (InsertedBody r)
  | PostSync payload => r <- sync payload now ;; ret (SyncBody r)
  | GetPossessionsCsv game_id => r <- export_csv game_id ;; ret (CsvBody r)
  end.

(** The database after a sequence of requests, each with its clock
    reading.  A request that raises is answered with an error and the
    service goes on. *)
Definition serve_all (requests : list (string * Request)) (db : Database)
    : Database :=
  fold_left (fun db request => snd (route (fst request) (snd request) db))
            requests db.

(** The allowed origins.  [os.getenv("CORS_ORIGINS", "")] is [env], [None]
    when the variable is not set; [str.strip] is a parameter. *)
Definition default_origins : list string :=
  [ "http://localhost:5173"; "http://127.0.0.1:5173" ]%string.

(** [s.split(sep)] for a separator of one character. *)
Fixpoint split_on (sep : ascii) (s : string) : list string :=
  match s with
  | EmptyString => [EmptyString]
  | String c s' =>
      if Ascii.eqb c sep
      then EmptyString :: split_on sep s'
      else
        match split_on sep s' with
        | piece :: pieces => String c piece :: pieces
        | [] => [String c EmptyString]
        end
  end.

(** A string is true when it is not empty. *)
Definition truthy (s : string) : bool :=
  match s with
  | EmptyString => false
  | String _ _ => true
  end.

Definition extra_origins (strip : string -> string) (env : option string)
    : list string :=
  let value := match env with Some v => v | None => EmptyString end in
  map strip (filter (fun origin => truthy (strip origin)) (split_on comma value)).

Definition allow_origins (strip : string -> string) (env : option string)
    : list string :=
  default_origins ++ extra_origins strip env.

(** ** More specification vocabulary *)

(** The store with a game row appended under the next id. *)
Definition with_game (s : Store) (game : GameIn.t) (now : string) : Store :=
  {| tbl_games := tbl_games s ++ [game_row (next_game_id s) game now];
     seq_games := next_game_id s;
     tbl_possessions := tbl_possessions s |}.

(** [s'] holds the rows of [s], in place, and possibly more after them. *)
Definition extends (s s' : Store) : Prop :=
  (exists more, tbl_games s' = tbl_games s ++ more) /\
  (exists more, tbl_possessions s' = tbl_possessions s ++ more).

(** The ids of the games are 1, 2, ... in the order of the rows, and the
    sequence of the table stands at the last of them. *)
Definition ids_consecutive (s : Store) : Prop :=
  map GameRow.id (tbl_games s) =
    map Z.of_nat (seq 1 (List.length (tbl_games s))) /\
  seq_games s = Z.of_nat (List.length (tbl_games s)).

(** No two rows share a key. *)
Definition keys_unique (s : Store) : Prop :=
  NoDup (map GameRow.id (tbl_games s)) /\
  NoDup (map GameRow.client_id (tbl_games s)) /\
  NoDup (map PossessionRow.client_id (tbl_possessions s)).

(** Every possession belongs to a stored game. *)
Definition possessions_have_games (s : Store) : Prop :=
  forall p, In p (tbl_possessions s) ->
    game_exists (PossessionRow.game_id p) s = true.



(** A string of [n] commas. *)
Fixpoint commas (n : nat) : string :=
  match n with
  | O => EmptyString
  | S n' => String comma (commas n')
  end.

Fixpoint has_char (c : ascii) (s : string) : bool :=
  match s with
  | EmptyString => false
  | String c' s' => Ascii.eqb c' c || has_char c s'
  end.

(** An evening of requests, for the examples: a sync, a later possession,
    a possession for a game that does not exist, a second game and the
    list of games. *)
Definition evening : list (string * Request) :=
  [ ("2024-01-10T19:00:00"%string, PostSync opener_payload);
    ("2024-01-10T19:05:00"%string, PostPossessions 1 [third_possession]);
    ("2024-01-10T19:06:00"%string, PostPossessions 5 [fourth_possession]);
    ("2024-01-10T19:07:00"%string,
     PostGames (GameIn.mk "g2" "Away" None "2024-01-17"));
    ("2024-01-10T19:08:00"%string, GetGames) ].

(** The same evening was served before with an engine that gave up after
    nine statements. *)
Definition interrupted_evening : Database :=
  serve_all evening (mkDatabase empty_store (Some 9%nat)).

(** * Properties *)

(** ** Lookups in the tables *)

Lemma find_existsb_false {A} (f : A -> bool) (l : list A) :
  existsb f l = false -> find f l = None.
Proof.
  induction l as [|x l IH]; simpl; [reflexivity|].
  destruct (f x); simpl; [discriminate|exact IH].
Qed.




(** ** [create_game] *)





(** ** [add_possessions] *)

Lemma possession_stored_In (cid : string) (s : Store) :
  possession_stored cid s = true <-> In cid (stored_client_ids s).
Proof.
  unfold possession_stored, stored_client_ids. rewrite existsb_exists, in_map_iff.
  split; intros [r [H1 H2]]; exists r.
  - apply String.eqb_eq in H2. auto.
  - split; [exact H2|]. apply String.eqb_eq, H1.
Qed.

(** [first_occurrences] reads [seen] as a set. *)
Lemma first_occurrences_ext (ps : list PossessionIn.t) :
  forall seen seen',
    (forall c, In c seen <-> In c seen') ->
    first_occurrences seen ps = first_occurrences seen' ps.
Proof.
  induction ps as [|p rest IH]; intros seen seen' Hext; simpl; [reflexivity|].
  destruct (in_dec string_dec _ seen) as [Hin|Hout];
    destruct (in_dec string_dec _ seen') as [Hin'|Hout'].
  - apply IH, Hext.
  - exfalso. apply Hout', Hext, Hin.
  - exfalso. apply Hout, Hext, Hin'.
  - f_equal. apply IH. intros c. simpl. rewrite (Hext c). tauto.
Qed.

(** The client identifiers kept are exactly those of the list that were
    not seen, each once. *)
Lemma first_occurrences_In (ps : list PossessionIn.t) :
  forall seen c,
    In c (map PossessionIn.client_id (first_occurrences seen ps)) <->
    In c (map PossessionIn.client_id ps) /\ ~ In c seen.
Proof.
  induction ps as [|p rest IH]; intros seen c; simpl; [tauto|].
  destruct (in_dec string_dec _ seen) as [Hin|Hout]; simpl; rewrite IH; simpl.
  - split; [tauto|]. intros [[<-|H] Hs]; [contradiction|tauto].
  - destruct (string_dec (PossessionIn.client_id p) c) as [<-|Hne]; tauto.
Qed.

Lemma first_occurrences_NoDup (ps : list PossessionIn.t) :
  forall seen, NoDup (map PossessionIn.client_id (first_occurrences seen ps)).
Proof.
  induction ps as [|p rest IH]; intros seen; simpl; [constructor|].
  destruct (in_dec string_dec _ seen) as [Hin|Hout]; [apply IH|].
  simpl. constructor; [|apply IH].
  rewrite first_occurrences_In. simpl. tauto.
Qed.


Lemma with_possessions_nil (s : Store) : with_possessions s [] = s.
Proof. destruct s. unfold with_possessions. simpl. now rewrite app_nil_r. Qed.

Lemma with_possessions_cons (s : Store) (r : PossessionRow.t)
    (rows : list PossessionRow.t) :
  with_possessions (with_possessions s [r]) rows = with_possessions s (r :: rows).
Proof. unfold with_possessions. simpl. now rewrite <- app_assoc. Qed.

Lemma new_entries_after_insert (s : Store) (gid : Z) (p : PossessionIn.t)
    (rest : list PossessionIn.t) :
  new_entries (with_possessions s [possession_row gid p]) rest =
  first_occurrences (PossessionIn.client_id p :: stored_client_ids s) rest.
Proof.
  unfold new_entries. apply first_occurrences_ext. intros c.
  unfold stored_client_ids, with_possessions. simpl.
  rewrite map_app, in_app_iff. simpl. tauto.
Qed.

(** Binding integers that fit raises nothing. *)
Lemma execute_with_fit {A} (ints : list Z)
    (stmt : Store -> Z -> Result (A * Store * Z)) (c : Conn) :
  forallb sqlite_int ints = true -> execute_with ints stmt c = execute stmt c.
Proof. intros H. unfold execute_with. now rewrite H. Qed.

Lemma execute_with_overflow {A} (ints : list Z)
    (stmt : Store -> Z -> Result (A * Store * Z)) (c : Conn) :
  forallb sqlite_int ints = false ->
  execute_with ints stmt c = (Raise OverflowError, c).
Proof. intros H. unfold execute_with. now rewrite H. Qed.




Lemma ints_fit_one (n : Z) : sqlite_int n = true -> forallb sqlite_int [n] = true.
Proof. intros H. simpl. now rewrite H. Qed.



Lemma game_exists_with_possessions (gid : Z) (s : Store)
    (rows : list PossessionRow.t) :
  game_exists gid (with_possessions s rows) = game_exists gid s.
Proof. reflexivity. Qed.







(** The empty list is answered before the game is looked up: no [404] for
    an unknown game.  And a [game_id] past the largest [INTEGER] cannot be
    bound to the lookup: [OverflowError], not [404]. *)
Lemma add_possessions_empty_list_unknown_game :
  game_exists 7 empty_store = false /\
  add_possessions 7 [] (online empty_store) = (Ok 0, online empty_store) /\
  (forall status detail,
     fst (add_possessions 7 [] (online empty_store)) <>
     Raise (HTTPException status detail)) /\
  game_exists (2 ^ 63) empty_store = false /\
  add_possessions (2 ^ 63) [first_possession] (online empty_store) =
    (Raise OverflowError, online empty_store).
Proof.
  split; [reflexivity|]. split; [reflexivity|].
  split; [intros status detail; simpl; discriminate|].
  split; reflexivity.
Qed.

(** C3 (amended). For a [game_id] that fits SQLite's signed 64-bit
    [INTEGER] and references no game, [add_possessions] raises
    [404 Game not found] on every list that is not empty and returns 0 on
    the empty list; in both cases nothing is written to the store. *)
Theorem add_possessions_unknown_game :
  forall (s : Store) (gid : Z) (ps : list PossessionIn.t),
    game_exists gid s = false ->
    sqlite_int gid = true ->
    add_possessions gid ps (online s) =
      (match ps with
       | [] => Ok 0
       | _ :: _ => Raise (HTTPException 404 "Game not found")
       end,
       online s).
Proof.
  intros s gid [|p rest] Hg Hgid; [reflexivity|].
  unfold add_possessions, add_possessions_after_lookup, with_conn, exit_conn,
    bind, select_game_id_by_id.
  rewrite (execute_with_fit _ _ _ (ints_fit_one gid Hgid)). unfold execute.
  cbn [get_conn online disk faults engine work last_insert_rowid option_map].
  unfold game_exists in Hg. rewrite (find_existsb_false _ _ Hg).
  reflexivity.
Qed.

Lemma add_possessions_unknown_game_witness :
  game_exists 7 opener_store = false /\
  sqlite_int 7 = true /\
  add_possessions 7 [first_possession] (online opener_store) =
    (Raise (HTTPException 404 "Game not found"), online opener_store).
Proof.
  split; [reflexivity|]. split; [reflexivity|].
  apply (add_possessions_unknown_game opener_store 7 [first_possession]);
    reflexivity.
Defined.


Lemma stored_client_ids_with_possessions (s : Store) (gid : Z)
    (entries : list PossessionIn.t) :
  stored_client_ids (with_possessions s (map (possession_row gid) entries)) =
  stored_client_ids s ++ map PossessionIn.client_id entries.
Proof.
  unfold stored_client_ids, with_possessions. cbn [tbl_possessions].
  now rewrite map_app, map_map.
Qed.






(** ** Repeated client identifiers inside one list *)









(** ** [ORDER BY] *)

Section OrderBy.
Context {A : Type}.
Variable le : A -> A -> bool.
Hypothesis le_total : forall a b, le a b = true \/ le b a = true.
Hypothesis le_trans : forall a b c, le a b = true -> le b c = true -> le a c = true.

Lemma insert_by_perm (x : A) (l : list A) :
  Permutation (insert_by le x l) (x :: l).
Proof.
  induction l as [|y l IH]; simpl; [apply Permutation_refl|].
  destruct (le x y); [apply Permutation_refl|].
  eapply perm_trans; [apply perm_skip, IH|apply perm_swap].
Qed.

Lemma order_by_perm (l : list A) : Permutation (order_by le l) l.
Proof.
  induction l as [|x l IH]; simpl; [constructor|].
  eapply perm_trans; [apply insert_by_perm|apply perm_skip, IH].
Qed.

Lemma insert_by_sorted (x : A) (l : list A) :
  StronglySorted (holds le) l -> StronglySorted (holds le) (insert_by le x l).
Proof.
  induction l as [|y l IH]; intros Hs; simpl.
  - repeat constructor.
  - inversion Hs as [|y' l' Hl Hy]; subst.
    destruct (le x y) eqn:E.
    + constructor; [exact Hs|]. constructor; [exact E|].
      eapply Forall_impl; [|exact Hy]. intros z Hz. eapply le_trans; eassumption.
    + constructor; [apply IH, Hl|].
      assert (Hyx : holds le y x)
      by (destruct (le_total x y); [congruence|assumption]).
      eapply Permutation_Forall; [apply Permutation_sym, insert_by_perm|].
      constructor; assumption.
Qed.

Lemma order_by_sorted (l : list A) : StronglySorted (holds le) (order_by le l).
Proof.
  induction l as [|x l IH]; simpl; [constructor|].
  apply insert_by_sorted, IH.
Qed.
End OrderBy.


Lemma string_leb_trans (a b c : string) :
  String.leb a b = true -> String.leb b c = true -> String.leb a c = true.
Proof.
  unfold String.leb. intros Hab Hbc.
  destruct (String.compare a b) eqn:Eab; [| |discriminate].
  - apply String.compare_eq_iff in Eab. now subst.
  - destruct (String.compare b c) eqn:Ebc; [| |discriminate].
    + apply String.compare_eq_iff in Ebc. subst. now rewrite Eab.
    + apply String_as_OT.cmp_lt in Eab, Ebc.
      pose proof (String_as_OT.lt_trans _ _ _ Eab Ebc) as Hac.
      apply String_as_OT.cmp_lt in Hac. unfold String_as_OT.cmp in Hac.
      now rewrite Hac.
Qed.

(** ** [list_games] *)

(** C6. [list_games] returns every row of [games], each once, ordered by
    [created_at] descending: no row comes before a row with a later
    creation timestamp.  The store is left as it is. *)
Theorem list_games_most_recent_first :
  forall s : Store,
    exists rows : list GameRow.t,
      list_games (online s) = (Ok rows, online s) /\
      Permutation rows (tbl_games s) /\
      StronglySorted not_older rows.
Proof.
  intros s. exists (order_by created_at_desc (tbl_games s)).
  split; [|split].
  - unfold list_games, with_conn, exit_conn, bind, select_games_by_created_at_desc, execute.
    simpl. destruct s; reflexivity.
  - apply order_by_perm.
  - apply (order_by_sorted created_at_desc).
    + intros a b. apply String.leb_total.
    + intros a b c Hab Hbc. unfold created_at_desc in *.
      eapply string_leb_trans; eassumption.
Qed.

(** Three games created in the order of their clocks come back in the
    opposite order. *)
Example list_games_three :
  option_map (map GameRow.client_id)
    (match fst ((create_game home_opener "2024-01-10T19:00:00" ;;
                 create_game (GameIn.mk "g2" "Away" None "2024-01-17")
                   "2024-01-17T18:30:00.250000" ;;
                 create_game (GameIn.mk "g3" "Cup" None "2024-01-17")
                   "2024-01-17T18:30:01" ;;
                 list_games) (online empty_store)) with
     | Ok rows => Some rows
     | Raise _ => None
     end) =
  Some ["g3"; "g2"; "g1"]%string.
Proof. reflexivity. Qed.

(** ** [export_csv] *)







Lemma latin1_append (a b : string) :
  latin1 (a ++ b) = latin1 a && latin1 b.
Proof.
  induction a as [|c a IH]; [reflexivity|].
  cbn [String.append latin1]. rewrite IH. apply andb_assoc.
Qed.

Lemma latin1_replace_spaces (s : string) :
  latin1 (replace_spaces s) = latin1 s.
Proof.
  induction s as [|c s IH]; [reflexivity|].
  cbn [replace_spaces latin1]. rewrite IH.
  destruct (Ascii.eqb_spec c " ") as [->|NE]; reflexivity.
Qed.

Lemma disposition_latin1 (game : GameRow.t) :
  exportable game = true ->
  latin1 ("attachment; filename=" ++
          (replace_spaces (GameRow.name game) ++ "_" ++
           GameRow.game_date game ++ ".csv")) = true.
Proof.
  unfold exportable. intros H. apply andb_true_iff in H. destruct H as [Hn Hd].
  rewrite !latin1_append, latin1_replace_spaces, Hn, Hd. reflexivity.
Qed.

(** The response of [export_csv] for a game that is found, when its id
    can be bound and its name and date can go into the header. *)
Lemma export_csv_run (s : Store) (gid : Z) (game : GameRow.t) :
  find (game_has_id gid) (tbl_games s) = Some game ->
  sqlite_int gid = true ->
  exportable game = true ->
  export_csv gid (online s) =
    (Ok {| body :=
             written
               (writerow csv_header ::
                map (fun row => writerow (csv_record row))
                  (order_by number_asc
                     (filter (possession_of_game gid) (tbl_possessions s))));
           media_type := "text/csv";
           content_disposition :=
             ("attachment; filename=" ++
              (replace_spaces (GameRow.name game) ++ "_" ++
               GameRow.game_date game ++ ".csv"))%string |},
     online s).
Proof.
  intros Hf Hgid Hex.
  unfold export_csv, bind at 1, with_conn, exit_conn, bind,
    select_game_by_id, select_possessions_by_number.
  rewrite !(execute_with_fit _ _ _ (ints_fit_one gid Hgid)).
  unfold execute, ret.
  cbn [get_conn online disk faults engine work last_insert_rowid option_map].
  rewrite Hf. cbn [work engine].
  rewrite (execute_with_fit _ _ _ (ints_fit_one gid Hgid)). unfold execute.
  cbn [work engine last_insert_rowid option_map].
  unfold StreamingResponse. rewrite (disposition_latin1 game Hex).
  unfold ret. destruct s; reflexivity.
Qed.




(** The export of the recorded game, line by line. *)
Example export_csv_recorded :
  option_map body
    (match fst (export_csv 1 (online recorded_store)) with
     | Ok response => Some response
     | Raise _ => None
     end) =
  Some ("possession_number,quarter,paint_touch,points,outcome,notes,timestamp"
        ++ crlf ++
        "1,1,yes,2,make,,t1" ++ crlf ++
        "2,1,no,,miss,late clock,t2" ++ crlf ++
        "3,2,yes,0,turnover,,t3" ++ crlf ++
        "4,2,yes,,miss,,t4" ++ crlf)%string.
Proof. reflexivity. Qed.

(** Free text that holds a comma or a quote is quoted, quotes doubled. *)
Example csv_field_quoted :
  csv_field "miss, long" =
  String dquote ("miss, long" ++ String dquote EmptyString).
Proof. reflexivity. Qed.

(** ** [sync] *)





(** The scenario evaluated: the id handed out on a new file is 1. *)
Example sync_home_opener :
  fst (sync (SyncPayload.mk home_opener [first_possession]) "2024-01-10T19:00:00"
         (online empty_store)) =
  Ok {| game_id := 1; created := true; inserted_possessions := 1 |}.
Proof. reflexivity. Qed.

(** ** [sync] when the second step raises *)

Lemma find_none_existsb {A} (f : A -> bool) (l : list A) :
  find f l = None -> existsb f l = false.
Proof.
  induction l as [|x l IH]; simpl; [reflexivity|].
  destruct (f x); [discriminate|exact IH].
Qed.

(** Whatever made [add_possessions] raise, its own transaction is rolled
    back and nothing else: the database file is as the call found it. *)
Lemma add_possessions_raise_rollback (gid : Z) (ps : list PossessionIn.t)
    (db db2 : Database) (e : Exn) :
  add_possessions gid ps db = (Raise e, db2) -> disk db2 = disk db.
Proof.
  destruct ps as [|p rest]; [discriminate|].
  unfold add_possessions, with_conn, exit_conn.
  match goal with
  | |- context [bind ?m ?k (get_conn db)] =>
      destruct (bind m k (get_conn db)) as [[n|e'] c]
  end; intros H; inversion H; reflexivity.
Qed.

(** A [create_game] that answers [created = true] has committed the new
    row, under the id it returns, whatever the engine does afterwards. *)
Lemma create_game_created (game : GameIn.t) (now : string)
    (db db1 : Database) (r : GameResponse) :
  create_game game now db = (Ok r, db1) ->
  resp_created r = true ->
  game_stored (GameIn.client_id game) (disk db) = false /\
  tbl_games (disk db1) =
    tbl_games (disk db) ++ [game_row (resp_id r) game now].
Proof.
  destruct db as [s f].
  unfold create_game, create_game_after_lookup, with_conn, exit_conn, bind,
    select_game_id_by_client_id, insert_game, select_last_insert_rowid,
    execute, game_stored.
  cbn [get_conn disk faults engine work last_insert_rowid].
  destruct (find (game_has_client_id (GameIn.client_id game)) (tbl_games s))
    as [row|] eqn:Hf.
  - destruct f as [[|n]|]; cbn; intros H Hc; inversion H; subst;
      discriminate Hc.
  - pose proof (find_none_existsb _ _ Hf) as Hex.
    destruct f as [[|[|[|n]]]|]; cbn; rewrite ?Hex; cbn;
      intros H Hc; inversion H; subst; cbn; split; reflexivity.
Qed.

(** C8. [sync] is not one transaction.  When [create_game] has returned
    and [add_possessions] then raises, for whatever reason, [sync] raises
    the same exception and the database file is the one [create_game]
    committed: a game row it created stays in the table. *)
Theorem sync_keeps_game_when_possessions_raise :
  forall (payload : SyncPayload.t) (now : string) (db db1 db2 : Database)
         (game_response : GameResponse) (e : Exn),
    create_game (SyncPayload.game payload) now db = (Ok game_response, db1) ->
    add_possessions (resp_id game_response) (SyncPayload.possessions payload) db1
      = (Raise e, db2) ->
    sync payload now db = (Raise e, db2) /\
    disk db2 = disk db1 /\
    (resp_created game_response = true ->
     game_stored (GameIn.client_id (SyncPayload.game payload)) (disk db) = false /\
     tbl_games (disk db2) =
       tbl_games (disk db) ++
       [game_row (resp_id game_response) (SyncPayload.game payload) now]).
Proof.
  intros payload now db db1 db2 r e Hcreate Hadd.
  pose proof (add_possessions_raise_rollback _ _ _ _ _ Hadd) as Hdisk.
  split; [|split; [exact Hdisk|]].
  - unfold sync, bind. rewrite Hcreate, Hadd. reflexivity.
  - intros Hc. rewrite Hdisk. eapply create_game_created; eassumption.
Qed.

Lemma sync_keeps_game_when_possessions_raise_witness :
  create_game (SyncPayload.game opener_payload) "2024-01-10T19:00:00"
    (mkDatabase empty_store (Some 5%nat))
    = (Ok (mkGameResponse 1 true), mkDatabase opener_store (Some 2%nat)) /\
  add_possessions (resp_id (mkGameResponse 1 true))
    (SyncPayload.possessions opener_payload)
    (mkDatabase opener_store (Some 2%nat))
    = (Raise OperationalError, mkDatabase opener_store (Some 0%nat)) /\
  sync opener_payload "2024-01-10T19:00:00" (mkDatabase empty_store (Some 5%nat))
    = (Raise OperationalError, mkDatabase opener_store (Some 0%nat)) /\
  disk (mkDatabase opener_store (Some 0%nat)) =
    disk (mkDatabase opener_store (Some 2%nat)) /\
  (resp_created (mkGameResponse 1 true) = true ->
   game_stored (GameIn.client_id (SyncPayload.game opener_payload))
     (disk (mkDatabase empty_store (Some 5%nat))) = false /\
   tbl_games (disk (mkDatabase opener_store (Some 0%nat))) =
     tbl_games (disk (mkDatabase empty_store (Some 5%nat))) ++
     [game_row (resp_id (mkGameResponse 1 true)) (SyncPayload.game opener_payload)
        "2024-01-10T19:00:00"]).
Proof.
  split; [reflexivity|]. split; [reflexivity|].
  apply (sync_keeps_game_when_possessions_raise opener_payload
           "2024-01-10T19:00:00"
           (mkDatabase empty_store (Some 5%nat))
           (mkDatabase opener_store (Some 2%nat))
           (mkDatabase opener_store (Some 0%nat))
           (mkGameResponse 1 true) OperationalError); reflexivity.
Defined.

(** ** Requests that race on a client identifier *)

(** [INSERT OR IGNORE] treats a client identifier that is already in the
    table as a row to skip, whoever wrote it: it never raises
    [IntegrityError]. *)
Lemma insert_or_ignore_no_integrity_error (row : PossessionRow.t)
    (c c' : Conn) (e : Exn) :
  insert_or_ignore_possession row c = (Raise e, c') ->
  e = OverflowError \/ e = OperationalError.
Proof.
  unfold insert_or_ignore_possession, execute_with, execute.
  destruct (forallb sqlite_int (row_ints row)); [|intros H; inversion H; auto].
  destruct (engine c) as [[|n]|];
    try destruct (existsb (possession_has_client_id (PossessionRow.client_id row))
                   (tbl_possessions (work c)));
    intros H; inversion H; auto.
Qed.


(** C9 (the code at the failing schedule).  Two [create_game] requests
    for one new client identifier, the second looking the game up before
    the first has inserted it: the first creates the game, the [INSERT] of
    the second is rejected by the [UNIQUE] constraint and the request ends
    with [IntegrityError], not with the id of the stored game and
    [created = false]. *)
Theorem create_game_race_raises :
  forall (s : Store) (game_a game_b : GameIn.t) (now_a now_b : string),
    GameIn.client_id game_b = GameIn.client_id game_a ->
    game_stored (GameIn.client_id game_a) s = false ->
    create_game_race game_a game_b now_a now_b (online s) =
      (Ok {| resp_id := next_game_id s; resp_created := true |},
       Raise (IntegrityError "UNIQUE constraint failed: games.client_id"),
       online {| tbl_games := tbl_games s ++ [game_row (next_game_id s) game_a now_a];
                 seq_games := next_game_id s;
                 tbl_possessions := tbl_possessions s |}).
Proof.
  intros s game_a game_b now_a now_b Hsame Hnew.
  unfold game_stored in Hnew.
  unfold create_game_race, resume, exit_conn, refresh, create_game_after_lookup,
    bind, select_game_id_by_client_id, insert_game, select_last_insert_rowid,
    execute.
  cbn [get_conn online disk faults engine work last_insert_rowid option_map fst snd].
  rewrite Hsame, (find_existsb_false _ _ Hnew).
  cbn [option_map work engine last_insert_rowid].
  rewrite Hnew. unfold ret.
  cbn [work engine disk tbl_games last_insert_rowid option_map].
  rewrite existsb_app. cbn [existsb].
  unfold game_has_client_id at 2. cbn [GameRow.client_id].
  rewrite String.eqb_refl, orb_true_r. reflexivity.
Qed.

Lemma create_game_race_raises_witness :
  GameIn.client_id home_opener = GameIn.client_id home_opener /\
  game_stored (GameIn.client_id home_opener) empty_store = false /\
  create_game_race home_opener home_opener
    "2024-01-10T19:00:00" "2024-01-10T19:00:00" (online empty_store) =
    (Ok {| resp_id := 1; resp_created := true |},
     Raise (IntegrityError "UNIQUE constraint failed: games.client_id"),
     online opener_store).
Proof.
  split; [reflexivity|]. split; [reflexivity|].
  apply (create_game_race_raises empty_store home_opener home_opener
           "2024-01-10T19:00:00" "2024-01-10T19:00:00"); reflexivity.
Defined.

(** * The handlers on any database

    What follows holds whatever the engine's budget is: for requests that
    return and for requests that raise. *)

(** ** What a handler can commit *)

(** [create_game] either leaves the file as it is (the game was stored, or
    the request raised) or commits one new row. *)
Lemma create_game_cases (game : GameIn.t) (now : string) (db db1 : Database)
    (res : Result GameResponse) :
  create_game game now db = (res, db1) ->
  (disk db1 = disk db /\
   forall r, res = Ok r ->
     resp_created r = false /\
     exists row,
       find (game_has_client_id (GameIn.client_id game)) (tbl_games (disk db))
         = Some row /\
       GameRow.id row = resp_id r) \/
  (game_stored (GameIn.client_id game) (disk db) = false /\
   res = Ok {| resp_id := next_game_id (disk db); resp_created := true |} /\
   disk db1 = with_game (disk db) game now).
Proof.
  destruct db as [s f].
  unfold create_game, create_game_after_lookup, with_conn, exit_conn, bind,
    select_game_id_by_client_id, insert_game, select_last_insert_rowid,
    execute, game_stored.
  cbn [get_conn disk faults engine work last_insert_rowid].
  destruct (find (game_has_client_id (GameIn.client_id game)) (tbl_games s))
    as [row|] eqn:Hf.
  - destruct f as [[|n]|]; cbn; intros H; inversion H; subst; left;
      split; try reflexivity; intros r Hr; try discriminate Hr;
      inversion Hr; subst; cbn; split; eauto.
  - pose proof (find_none_existsb _ _ Hf) as Hex.
    destruct f as [[|[|[|n]]]|]; cbn; rewrite ?Hex; cbn;
      intros H; inversion H; subst;
      try (left; split; [reflexivity|intros r Hr; discriminate Hr]);
      right; repeat split.
Qed.




(** A statement that returned: what it read and what it wrote. *)
Lemma select_game_id_ok (gid : Z) (c c' : Conn) (game : option Z) :
  select_game_id_by_id gid c = (Ok game, c') ->
  game = option_map GameRow.id (find (game_has_id gid) (tbl_games (work c))) /\
  work c' = work c.
Proof.
  unfold select_game_id_by_id, execute_with, execute.
  destruct (forallb sqlite_int [gid]); [|discriminate].
  destruct (engine c) as [[|n]|]; intros H; inversion H; auto.
Qed.

Lemma insert_or_ignore_ok (row : PossessionRow.t) (c c' : Conn) (rowcount : Z) :
  insert_or_ignore_possession row c = (Ok rowcount, c') ->
  (possession_stored (PossessionRow.client_id row) (work c) = true /\
   rowcount = 0 /\ work c' = work c) \/
  (possession_stored (PossessionRow.client_id row) (work c) = false /\
   rowcount = 1 /\ work c' = with_possessions (work c) [row]).
Proof.
  unfold insert_or_ignore_possession, execute_with, execute, possession_stored.
  destruct (forallb sqlite_int (row_ints row)); [|discriminate].
  destruct (existsb (possession_has_client_id (PossessionRow.client_id row))
              (tbl_possessions (work c)));
    destruct (engine c) as [[|n]|]; intros H; inversion H; auto.
Qed.

(** A loop that returned has counted and appended the new entries. *)
Lemma insert_loop_ok (gid : Z) (ps : list PossessionIn.t) :
  forall (c c' : Conn) (inserted n : Z),
    insert_loop gid ps inserted c = (Ok n, c') ->
    n = inserted + Z.of_nat (List.length (new_entries (work c) ps)) /\
    work c' =
      with_possessions (work c)
        (map (possession_row gid) (new_entries (work c) ps)).
Proof.
  induction ps as [|p rest IH]; intros c c' inserted n H.
  - inversion H; subst. simpl. rewrite with_possessions_nil. split; [lia|auto].
  - cbn [insert_loop] in H. unfold bind at 1 in H.
    destruct (insert_or_ignore_possession (possession_row gid p) c)
      as [[rowcount|e] c1] eqn:E; [|discriminate].
    apply insert_or_ignore_ok in E.
    cbn [possession_row PossessionRow.client_id] in E.
    apply IH in H. destruct H as [Hn Hw].
    unfold new_entries. cbn [first_occurrences].
    destruct E as [[Hst [-> Hc1]]|[Hst [-> Hc1]]]; rewrite Hc1 in *.
    + pose proof Hst as Hin. apply possession_stored_In in Hin.
      destruct (in_dec string_dec _ (stored_client_ids (work c)));
        [|contradiction].
      split; [exact Hn|exact Hw].
    + destruct (in_dec string_dec (PossessionIn.client_id p)
                  (stored_client_ids (work c))) as [Hin|Hout].
      { apply possession_stored_In in Hin. congruence. }
      rewrite new_entries_after_insert in Hn, Hw.
      rewrite with_possessions_cons in Hw.
      split; [|exact Hw]. cbn [List.length]. cbn [Z.eqb] in Hn. lia.
Qed.

(** Whatever its budget and its outcome, [add_possessions] leaves the file
    as it is or commits the rows of the new entries of the list. *)
Lemma add_possessions_cases (db db1 : Database) (gid : Z)
    (ps : list PossessionIn.t) (res : Result Z) :
  add_possessions gid ps db = (res, db1) ->
  disk db1 = disk db \/
  (game_exists gid (disk db) = true /\
   res = Ok (Z.of_nat (List.length (new_entries (disk db) ps))) /\
   disk db1 =
     with_possessions (disk db)
       (map (possession_row gid) (new_entries (disk db) ps))).
Proof.
  intros H. destruct res as [n|e];
    [|left; apply (add_possessions_raise_rollback _ _ _ _ _ H)].
  destruct ps as [|p rest]; [inversion H; now left|].
  right. revert H.
  unfold add_possessions, with_conn, exit_conn, bind.
  destruct (select_game_id_by_id gid (get_conn db)) as [[game|e] c0] eqn:Es;
    [|discriminate].
  apply select_game_id_ok in Es. cbn [get_conn work] in Es.
  destruct Es as [Hgame Hw0].
  unfold add_possessions_after_lookup.
  destruct game as [g|]; [|unfold raise; discriminate].
  destruct (insert_loop gid (p :: rest) 0 c0) as [[m|e] c1] eqn:El;
    [|discriminate].
  apply insert_loop_ok in El. rewrite Hw0 in El. destruct El as [Hm Hw1].
  intros H. inversion H; subst. cbn [disk].
  split; [|split; [f_equal; lia|exact Hw1]].
  unfold game_exists.
  destruct (find (game_has_id gid) (tbl_games (disk db))) as [r|] eqn:Hf;
    [|discriminate].
  apply find_some in Hf. apply existsb_exists. eauto.
Qed.

(** The handlers that only read. *)
Lemma list_games_reads (db db1 : Database) (res : Result (list GameRow.t)) :
  list_games db = (res, db1) -> disk db1 = disk db.
Proof.
  destruct db as [s f].
  unfold list_games, with_conn, exit_conn, bind,
    select_games_by_created_at_desc, execute.
  cbn [get_conn disk faults engine work last_insert_rowid].
  destruct f as [[|m]|]; cbn; intros H; inversion H; reflexivity.
Qed.

(** A statement that only reads leaves the working copy as it is. *)
Lemma read_only_work {A} (ints : list Z) (f : Store -> A) (c c' : Conn)
    (res : Result A) :
  execute_with ints (fun st rid => Ok (f st, st, rid)) c = (res, c') ->
  work c' = work c.
Proof.
  unfold execute_with, execute.
  destruct (forallb sqlite_int ints); [|intros H; inversion H; reflexivity].
  destruct (engine c) as [[|n]|]; intros H; inversion H; reflexivity.
Qed.

Lemma export_csv_reads (gid : Z) (db db1 : Database) (res : Result CsvResponse) :
  export_csv gid db = (res, db1) -> disk db1 = disk db.
Proof.
  unfold export_csv, bind at 1.
  match goal with
  | |- context [with_conn ?body db] =>
      destruct (with_conn body db) as [[found|e] db'] eqn:E
  end.
  - assert (Hd : disk db' = disk db).
    { revert E. unfold with_conn, exit_conn, bind.
      destruct (select_game_by_id gid (get_conn db)) as [[game|e] c0] eqn:E0;
        [|intros H; inversion H; reflexivity].
      apply read_only_work in E0.
      destruct game as [game|]; [|unfold raise; intros H; inversion H; reflexivity].
      destruct (select_possessions_by_number gid c0) as [[rows|e] c1] eqn:E1;
        [|intros H; inversion H; reflexivity].
      apply read_only_work in E1.
      unfold ret. intros H. inversion H. cbn [disk].
      rewrite E1, E0. reflexivity. }
    destruct found as [game rows]. unfold StreamingResponse.
    destruct (latin1 _); unfold ret, raise; intros H; inversion H; subst;
      exact Hd.
  - intros H. inversion H; subst.
    revert E. unfold with_conn, exit_conn.
    match goal with
    | |- context [bind ?m ?k (get_conn db)] =>
        destruct (bind m k (get_conn db)) as [[a|e'] c]
    end; intros H'; inversion H'; reflexivity.
Qed.

(** ** The invariant of the store *)

Lemma largest_nonneg (l : list Z) : 0 <= fold_right Z.max 0 l.
Proof. induction l as [|x l IH]; simpl; lia. Qed.

Lemma largest_app (l l' : list Z) :
  fold_right Z.max 0 (l ++ l') =
  Z.max (fold_right Z.max 0 l) (fold_right Z.max 0 l').
Proof.
  induction l as [|x l IH]; simpl.
  - pose proof (largest_nonneg l'). lia.
  - rewrite IH. lia.
Qed.

Lemma largest_seq (n : nat) :
  fold_right Z.max 0 (map Z.of_nat (seq 1 n)) = Z.of_nat n.
Proof.
  induction n as [|n IH]; [reflexivity|].
  rewrite seq_S, map_app, largest_app, IH. simpl fold_right. lia.
Qed.

Lemma max_rowid_bounds (rows : list GameRow.t) (g : GameRow.t) :
  In g rows -> GameRow.id g <= max_rowid rows.
Proof.
  unfold max_rowid. induction rows as [|r rows IH]; simpl; [tauto|].
  intros [->|H]; [lia|]. specialize (IH H). lia.
Qed.

Lemma next_game_id_consecutive (s : Store) :
  ids_consecutive s ->
  next_game_id s = Z.of_nat (S (List.length (tbl_games s))).
Proof.
  intros [Hids Hseq]. unfold next_game_id, max_rowid.
  rewrite Hids, Hseq, largest_seq. lia.
Qed.

Lemma NoDup_of_nat (l : list nat) : NoDup l -> NoDup (map Z.of_nat l).
Proof.
  induction 1 as [|x l Hx Hl IH]; simpl; constructor; [|exact IH].
  rewrite in_map_iff. intros [y [E Hy]]. apply Nat2Z.inj in E. now subst.
Qed.

Lemma game_exists_In (gid : Z) (s : Store) :
  game_exists gid s = true <-> In gid (map GameRow.id (tbl_games s)).
Proof.
  unfold game_exists. rewrite existsb_exists, in_map_iff.
  split; intros [r [H1 H2]]; exists r.
  - apply Z.eqb_eq in H2. auto.
  - split; [exact H2|]. apply Z.eqb_eq, H1.
Qed.

Lemma game_stored_In (cid : string) (s : Store) :
  game_stored cid s = true <-> In cid (map GameRow.client_id (tbl_games s)).
Proof.
  unfold game_stored. rewrite existsb_exists, in_map_iff.
  split; intros [r [H1 H2]]; exists r.
  - apply String.eqb_eq in H2. auto.
  - split; [exact H2|]. apply String.eqb_eq, H1.
Qed.

Lemma next_game_id_fresh (s : Store) :
  ~ In (next_game_id s) (map GameRow.id (tbl_games s)).
Proof.
  rewrite in_map_iff. intros [g [E Hg]].
  pose proof (max_rowid_bounds _ _ Hg). unfold next_game_id in E. lia.
Qed.

Lemma ids_consecutive_with_game (s : Store) (game : GameIn.t) (now : string) :
  ids_consecutive s -> ids_consecutive (with_game s game now).
Proof.
  intros Hids. pose proof (next_game_id_consecutive s Hids) as Hnext.
  destruct Hids as [Hids Hseq]. unfold ids_consecutive, with_game.
  cbn [tbl_games seq_games]. rewrite length_app, Nat.add_1_r. cbn [List.length].
  split; [|exact Hnext].
  rewrite map_app, seq_S, map_app, Hids. cbn [map GameRow.id game_row].
  rewrite Hnext. reflexivity.
Qed.

Lemma keys_unique_with_game (s : Store) (game : GameIn.t) (now : string) :
  game_stored (GameIn.client_id game) s = false ->
  keys_unique s -> keys_unique (with_game s game now).
Proof.
  intros Hnew [Hgids [Hcids Hpcids]]. unfold keys_unique, with_game.
  cbn [tbl_games tbl_possessions]. rewrite !map_app.
  split; [|split; [|exact Hpcids]].
  - apply NoDup_app; [exact Hgids|repeat constructor; intros []|].
    intros i Hi [<-|[]]. apply (next_game_id_fresh s), Hi.
  - apply NoDup_app; [exact Hcids|repeat constructor; intros []|].
    intros c Hc [<-|[]]. apply game_stored_In in Hc. simpl in Hc. congruence.
Qed.

Lemma have_games_with_game (s : Store) (game : GameIn.t) (now : string) :
  possessions_have_games s -> possessions_have_games (with_game s game now).
Proof.
  intros Href p Hp. specialize (Href p Hp).
  apply game_exists_In. apply game_exists_In in Href.
  unfold with_game. cbn [tbl_games]. rewrite map_app, in_app_iff. now left.
Qed.

Lemma keys_unique_with_possessions (s : Store) (gid : Z)
    (ps : list PossessionIn.t) :
  keys_unique s ->
  keys_unique (with_possessions s (map (possession_row gid) (new_entries s ps))).
Proof.
  intros [Hgids [Hcids Hpcids]].
  split; [exact Hgids|split; [exact Hcids|]].
  fold (stored_client_ids
          (with_possessions s (map (possession_row gid) (new_entries s ps)))).
  rewrite stored_client_ids_with_possessions.
  apply NoDup_app; [exact Hpcids|apply first_occurrences_NoDup|].
  intros c Hc Hc'. apply first_occurrences_In in Hc'. tauto.
Qed.

Lemma have_games_with_possessions (s : Store) (gid : Z)
    (ps : list PossessionIn.t) :
  game_exists gid s = true ->
  possessions_have_games s ->
  possessions_have_games
    (with_possessions s (map (possession_row gid) (new_entries s ps))).
Proof.
  intros Hg Href p Hp. unfold with_possessions in Hp. cbn [tbl_possessions] in Hp.
  rewrite game_exists_with_possessions.
  apply in_app_iff in Hp. destruct Hp as [Hp|Hp]; [apply Href, Hp|].
  apply in_map_iff in Hp. destruct Hp as [e [<- _]]. exact Hg.
Qed.

(** ** Every request is made of commits of two kinds *)

Section Commits.
Variable R : Store -> Store -> Prop.
Hypothesis R_refl : forall s, R s s.
Hypothesis R_trans : forall s1 s2 s3, R s1 s2 -> R s2 s3 -> R s1 s3.
Hypothesis R_game :
  forall s game now,
    game_stored (GameIn.client_id game) s = false -> R s (with_game s game now).
Hypothesis R_possessions :
  forall s gid ps,
    game_exists gid s = true ->
    R s (with_possessions s (map (possession_row gid) (new_entries s ps))).

Lemma R_same (s s' : Store) : s' = s -> R s s'.
Proof. intros ->. apply R_refl. Qed.

Lemma create_game_commits (game : GameIn.t) (now : string) (db : Database) :
  R (disk db) (disk (snd (create_game game now db))).
Proof.
  destruct (create_game game now db) as [res db1] eqn:E.
  destruct (create_game_cases _ _ _ _ _ E) as [[H _]|[Hnew [_ H]]];
    cbn [snd]; rewrite H; auto.
Qed.

Lemma add_possessions_commits (gid : Z) (ps : list PossessionIn.t)
    (db : Database) :
  R (disk db) (disk (snd (add_possessions gid ps db))).
Proof.
  destruct (add_possessions gid ps db) as [res db1] eqn:E.
  destruct (add_possessions_cases _ _ _ _ _ E) as [H|[Hg [_ H]]];
    cbn [snd]; rewrite H; auto.
Qed.

Lemma sync_commits (payload : SyncPayload.t) (now : string) (db : Database) :
  R (disk db) (disk (snd (sync payload now db))).
Proof.
  unfold sync, bind.
  pose proof (create_game_commits (SyncPayload.game payload) now db) as H1.
  destruct (create_game (SyncPayload.game payload) now db) as [[r|e] db1];
    cbn [snd] in *; [|exact H1].
  pose proof (add_possessions_commits (resp_id r)
                (SyncPayload.possessions payload) db1) as H2.
  destruct (add_possessions (resp_id r) (SyncPayload.possessions payload) db1)
    as [[n|e] db2]; cbn [snd] in *; eapply R_trans; eassumption.
Qed.

Lemma route_commits (now : string) (request : Request) (db : Database) :
  R (disk db) (disk (snd (route now request db))).
Proof.
  destruct request as [| |game|gid ps|payload|gid]; unfold route, bind.
  - apply R_refl.
  - destruct (list_games db) as [[r|e] db1] eqn:E; cbn [snd ret];
      apply R_same, (list_games_reads _ _ _ E).
  - pose proof (create_game_commits game now db) as H.
    destruct (create_game game now db) as [[r|e] db1]; exact H.
  - pose proof (add_possessions_commits gid ps db) as H.
    destruct (add_possessions gid ps db) as [[r|e] db1]; exact H.
  - pose proof (sync_commits payload now db) as H.
    destruct (sync payload now db) as [[r|e] db1]; exact H.
  - destruct (export_csv gid db) as [[r|e] db1] eqn:E; cbn [snd ret];
      apply R_same, (export_csv_reads _ _ _ _ E).
Qed.

Lemma serve_all_commits (requests : list (string * Request)) :
  forall db, R (disk db) (disk (serve_all requests db)).
Proof.
  induction requests as [|[now request] rest IH]; intros db; [apply R_refl|].
  unfold serve_all. cbn [fold_left fst snd].
  eapply R_trans; [apply (route_commits now request db)|apply IH].
Qed.
End Commits.

Lemma extends_refl (s : Store) : extends s s.
Proof. split; exists []; now rewrite app_nil_r. Qed.

Lemma extends_trans (s1 s2 s3 : Store) :
  extends s1 s2 -> extends s2 s3 -> extends s1 s3.
Proof.
  intros [[g1 Hg1] [p1 Hp1]] [[g2 Hg2] [p2 Hp2]]. split.
  - exists (g1 ++ g2). now rewrite Hg2, Hg1, app_assoc.
  - exists (p1 ++ p2). now rewrite Hp2, Hp1, app_assoc.
Qed.

Lemma extends_with_game (s : Store) (game : GameIn.t) (now : string) :
  extends s (with_game s game now).
Proof. split; [eexists; reflexivity|exists []; simpl; now rewrite app_nil_r]. Qed.

Lemma extends_with_possessions (s : Store) (rows : list PossessionRow.t) :
  extends s (with_possessions s rows).
Proof. split; [exists []; simpl; now rewrite app_nil_r|eexists; reflexivity]. Qed.

(** With nine statements the engine serves the sync and the third
    possession; the rest of the evening raises. *)
Example interrupted_evening_disk :
  disk interrupted_evening =
  with_possessions opener_store
    (map (possession_row 1)
       [first_possession; second_possession; third_possession]).
Proof. reflexivity. Qed.

(** ** Invariants over any sequence of requests *)

(** X1. Whatever requests are served and whenever the engine fails, a
    store whose keys are unique keeps them unique: no two games share an
    id or a client identifier and no two possessions share a client
    identifier. *)
Theorem keys_stay_unique :
  forall (requests : list (string * Request)) (db : Database),
    keys_unique (disk db) ->
    keys_unique (disk (serve_all requests db)).
Proof.
  intros requests db.
  apply (serve_all_commits (fun s s' => keys_unique s -> keys_unique s')).
  - auto.
  - auto.
  - intros s game now Hnew Hs. now apply keys_unique_with_game.
  - intros s gid ps Hg Hs. now apply keys_unique_with_possessions.
Qed.

Lemma keys_stay_unique_witness :
  keys_unique (disk (online opener_store)) /\
  keys_unique (disk (serve_all evening (online opener_store))).
Proof.
  assert (H : keys_unique (disk (online opener_store))).
  { repeat split; vm_compute; repeat constructor; simpl; intuition discriminate. }
  split; [exact H|].
  apply (keys_stay_unique evening (online opener_store) H).
Defined.

(** X2. The engine does not enforce the foreign key, the handlers do: in
    a store where every possession belongs to a stored game this stays
    so, whatever requests are served and whenever the engine fails. *)
Theorem possessions_keep_their_games :
  forall (requests : list (string * Request)) (db : Database),
    possessions_have_games (disk db) ->
    possessions_have_games (disk (serve_all requests db)).
Proof.
  intros requests db.
  apply (serve_all_commits
           (fun s s' => possessions_have_games s -> possessions_have_games s')).
  - auto.
  - auto.
  - intros s game now Hnew Hs. now apply have_games_with_game.
  - intros s gid ps Hg Hs. now apply have_games_with_possessions.
Qed.

Lemma possessions_keep_their_games_witness :
  possessions_have_games (disk (online recorded_store)) /\
  possessions_have_games (disk (serve_all evening (online recorded_store))).
Proof.
  assert (H : possessions_have_games (disk (online recorded_store))).
  { intros p Hp. vm_compute in Hp.
    destruct Hp as [<-|[<-|[<-|[<-|[]]]]]; reflexivity. }
  split; [exact H|].
  apply (possessions_keep_their_games evening (online recorded_store) H).
Defined.

(** X3. Games are numbered 1, 2, 3, ... in the order they were created:
    in a store where this holds and the sequence stands at the last id it
    stays so, whatever requests are served and whenever the engine fails;
    a request that raises uses up no id. *)
Theorem game_ids_stay_consecutive :
  forall (requests : list (string * Request)) (db : Database),
    ids_consecutive (disk db) ->
    ids_consecutive (disk (serve_all requests db)).
Proof.
  intros requests db.
  apply (serve_all_commits (fun s s' => ids_consecutive s -> ids_consecutive s')).
  - auto.
  - auto.
  - intros s game now Hnew Hs. now apply ids_consecutive_with_game.
  - intros s gid ps Hg Hs. exact Hs.
Qed.

Lemma game_ids_stay_consecutive_witness :
  ids_consecutive (disk (mkDatabase empty_store (Some 9%nat))) /\
  ids_consecutive (disk (serve_all evening (mkDatabase empty_store (Some 9%nat)))).
Proof.
  assert (H : ids_consecutive (disk (mkDatabase empty_store (Some 9%nat))))
    by (split; reflexivity).
  split; [exact H|].
  apply (game_ids_stay_consecutive evening _ H).
Defined.

(** X4. No request updates or deletes a row: after any sequence of
    requests both tables hold the rows they held, in place, followed by
    the rows that were added; the requests that only read ([GET /health],
    [GET /games], the CSV export) leave the file as it is even when they
    raise. *)
Theorem requests_only_append :
  forall (requests : list (string * Request)) (db : Database),
    extends (disk db) (disk (serve_all requests db)) /\
    (forall now gid,
       disk (snd (route now GetHealth db)) = disk db /\
       disk (snd (route now GetGames db)) = disk db /\
       disk (snd (route now (GetPossessionsCsv gid) db)) = disk db).
Proof.
  intros requests db. split.
  - apply (serve_all_commits extends).
    + apply extends_refl.
    + apply extends_trans.
    + intros s game now _. apply extends_with_game.
    + intros s gid ps _. apply extends_with_possessions.
  - intros now gid. split; [reflexivity|]. unfold route, bind. split.
    + destruct (list_games db) as [[r|e] db1] eqn:E; cbn [snd ret];
        apply (list_games_reads _ _ _ E).
    + destruct (export_csv gid db) as [[r|e] db1] eqn:E; cbn [snd ret];
        apply (export_csv_reads _ _ _ _ E).
Qed.

(** ** [create_game] on any database *)

(** X5. Whenever [create_game] returns, the id it returns is the id of a
    stored game that carries the client identifier of the payload.  With
    [created = true] the id is larger than every id the table held (ids
    are not reused); with [created = false] nothing was written. *)
Theorem create_game_returns_stored_id :
  forall (game : GameIn.t) (now : string) (db db1 : Database) (r : GameResponse),
    create_game game now db = (Ok r, db1) ->
    (exists row,
       In row (tbl_games (disk db1)) /\
       GameRow.id row = resp_id r /\
       GameRow.client_id row = GameIn.client_id game) /\
    (resp_created r = true ->
     forall g, In g (tbl_games (disk db)) -> GameRow.id g < resp_id r) /\
    (resp_created r = false -> disk db1 = disk db).
Proof.
  intros game now db db1 r H.
  destruct (create_game_cases _ _ _ _ _ H) as [[Hd Hr]|[Hnew [Hr Hd]]].
  - destruct (Hr r eq_refl) as [Hc [row [Hf Hid]]].
    apply find_some in Hf. destruct Hf as [Hin Hcid].
    split; [|split; [congruence|auto]].
    exists row. rewrite Hd. repeat split; auto.
    apply String.eqb_eq, Hcid.
  - inversion Hr; subst r. cbn [resp_id resp_created].
    split; [|split; [|discriminate]].
    + exists (game_row (next_game_id (disk db)) game now). rewrite Hd.
      unfold with_game. cbn [tbl_games]. rewrite in_app_iff.
      repeat split; simpl; auto.
    + intros _ g Hg. pose proof (max_rowid_bounds _ _ Hg).
      unfold next_game_id. lia.
Qed.

Lemma create_game_returns_stored_id_witness :
  create_game (GameIn.mk "g2" "Away" None "2024-01-17") "2024-01-17T18:30:00"
    (mkDatabase opener_store (Some 3%nat)) =
    (Ok (mkGameResponse 2 true),
     mkDatabase
       (with_game opener_store (GameIn.mk "g2" "Away" None "2024-01-17")
          "2024-01-17T18:30:00")
       (Some 0%nat)) /\
  (exists row,
     In row (tbl_games (disk (mkDatabase
       (with_game opener_store (GameIn.mk "g2" "Away" None "2024-01-17")
          "2024-01-17T18:30:00") (Some 0%nat)))) /\
     GameRow.id row = resp_id (mkGameResponse 2 true) /\
     GameRow.client_id row =
       GameIn.client_id (GameIn.mk "g2" "Away" None "2024-01-17")) /\
  (resp_created (mkGameResponse 2 true) = true ->
   forall g, In g (tbl_games (disk (mkDatabase opener_store (Some 3%nat)))) ->
     GameRow.id g < resp_id (mkGameResponse 2 true)) /\
  (resp_created (mkGameResponse 2 true) = false ->
   disk (mkDatabase
       (with_game opener_store (GameIn.mk "g2" "Away" None "2024-01-17")
          "2024-01-17T18:30:00") (Some 0%nat)) =
   disk (mkDatabase opener_store (Some 3%nat))).
Proof.
  split; [reflexivity|].
  apply (create_game_returns_stored_id
           (GameIn.mk "g2" "Away" None "2024-01-17") "2024-01-17T18:30:00"
           (mkDatabase opener_store (Some 3%nat))).
  reflexivity.
Defined.



(** ** [add_possessions] on any database *)



(** ** [sync] on a working engine *)








(** ** [export_csv], continued *)




(** X10. [export_csv] for a [game_id] that fits SQLite's signed 64-bit
    [INTEGER] and references no game raises [404 Game not found] and
    leaves the store as it is. *)
Theorem export_csv_unknown_game :
  forall (s : Store) (gid : Z),
    sqlite_int gid = true ->
    game_exists gid s = false ->
    export_csv gid (online s) =
      (Raise (HTTPException 404 "Game not found"), online s).
Proof.
  intros s gid Hgid Hg. unfold game_exists in Hg.
  unfold export_csv, bind, with_conn, exit_conn, select_game_by_id.
  rewrite (execute_with_fit _ _ _ (ints_fit_one gid Hgid)).
  unfold execute, raise.
  cbn [get_conn online disk faults engine work last_insert_rowid option_map].
  rewrite (find_existsb_false _ _ Hg). reflexivity.
Qed.

Lemma export_csv_unknown_game_witness :
  sqlite_int 7 = true /\
  game_exists 7 recorded_store = false /\
  export_csv 7 (online recorded_store) =
    (Raise (HTTPException 404 "Game not found"), online recorded_store).
Proof.
  split; [reflexivity|]. split; [reflexivity|].
  apply (export_csv_unknown_game recorded_store 7); reflexivity.
Defined.

Lemma replace_spaces_length (s : string) :
  String.length (replace_spaces s) = String.length s.
Proof. induction s as [|c s IH]; simpl; [reflexivity|now rewrite IH]. Qed.

Lemma replace_spaces_no_space (s : string) :
  has_char " " (replace_spaces s) = false.
Proof.
  induction s as [|c s IH]; simpl; [reflexivity|]. rewrite IH, orb_false_r.
  destruct (Ascii.eqb c " ") eqn:E; [reflexivity|exact E].
Qed.

Lemma replace_spaces_without_space (s : string) :
  has_char " " s = false -> replace_spaces s = s.
Proof.
  induction s as [|c s IH]; simpl; [reflexivity|].
  intros H. apply orb_false_iff in H. destruct H as [Hc Hs].
  rewrite Hc. f_equal. apply IH, Hs.
Qed.

Lemma find_unique_id (rows : list GameRow.t) (game : GameRow.t) :
  NoDup (map GameRow.id rows) -> In game rows ->
  find (game_has_id (GameRow.id game)) rows = Some game.
Proof.
  induction rows as [|r rows IH]; simpl; [tauto|].
  intros Hnd Hin. inversion Hnd as [|i l Hni Hnd']; subst.
  unfold game_has_id at 1.
  destruct (Z.eqb_spec (GameRow.id r) (GameRow.id game)) as [E|NE].
  - destruct Hin as [->|Hin]; [reflexivity|].
    exfalso. apply Hni. rewrite E. apply in_map, Hin.
  - destruct Hin as [->|Hin]; [congruence|]. apply IH; assumption.
Qed.

(** X11. The export of a stored game whose id fits SQLite's signed
    64-bit [INTEGER] and whose name and date are within Latin-1 is served
    as [text/csv] under the file name made of the name of the game with
    every space replaced by an underscore, an underscore, the date of the
    game and [.csv].  The replacement keeps the length of the name, leaves
    no space in it and changes nothing in a name without spaces. *)
Theorem export_csv_filename :
  forall (s : Store) (game : GameRow.t),
    NoDup (map GameRow.id (tbl_games s)) ->
    In game (tbl_games s) ->
    sqlite_int (GameRow.id game) = true ->
    exportable game = true ->
    exists response : CsvResponse,
      export_csv (GameRow.id game) (online s) = (Ok response, online s) /\
      media_type response = "text/csv"%string /\
      content_disposition response =
        ("attachment; filename=" ++ replace_spaces (GameRow.name game) ++ "_" ++
         GameRow.game_date game ++ ".csv")%string /\
      String.length (replace_spaces (GameRow.name game)) =
        String.length (GameRow.name game) /\
      has_char " " (replace_spaces (GameRow.name game)) = false /\
      (has_char " " (GameRow.name game) = false ->
       replace_spaces (GameRow.name game) = GameRow.name game).
Proof.
  intros s game Hnd Hin Hgid Hex.
  eexists.
  split; [apply (export_csv_run s _ game (find_unique_id _ _ Hnd Hin) Hgid Hex)|].
  cbn [media_type content_disposition].
  split; [reflexivity|]. split; [reflexivity|].
  split; [apply replace_spaces_length|].
  split; [apply replace_spaces_no_space|apply replace_spaces_without_space].
Qed.

Lemma export_csv_filename_witness :
  NoDup (map GameRow.id (tbl_games recorded_store)) /\
  In (game_row 1 home_opener "2024-01-10T19:00:00") (tbl_games recorded_store) /\
  exportable (game_row 1 home_opener "2024-01-10T19:00:00") = true /\
  exists response : CsvResponse,
    export_csv 1 (online recorded_store) = (Ok response, online recorded_store) /\
    media_type response = "text/csv"%string /\
    content_disposition response =
      ("attachment; filename=" ++ "Home_Opener" ++ "_" ++ "2024-01-10" ++ ".csv")%string.
Proof.
  assert (Hnd : NoDup (map GameRow.id (tbl_games recorded_store)))
    by (repeat constructor; simpl; tauto).
  assert (Hin : In (game_row 1 home_opener "2024-01-10T19:00:00")
                  (tbl_games recorded_store)) by (left; reflexivity).
  split; [exact Hnd|]. split; [exact Hin|]. split; [reflexivity|].
  destruct (export_csv_filename recorded_store _ Hnd Hin eq_refl eq_refl)
    as [response [Hrun [Hm [Hc _]]]].
  exists response. split; [exact Hrun|]. split; [exact Hm|exact Hc].
Defined.

(** ** Quoting in the export *)

Lemma double_quotes_inj (a : string) :
  forall b, double_quotes a = double_quotes b -> a = b.
Proof.
  induction a as [|c a IH]; intros [|d b]; simpl.
  - reflexivity.
  - destruct (Ascii.eqb d dquote); discriminate.
  - destruct (Ascii.eqb c dquote); discriminate.
  - destruct (Ascii.eqb_spec c dquote) as [Ec|Nc];
      destruct (Ascii.eqb_spec d dquote) as [Ed|Nd]; intros H.
    + injection H as H. subst. f_equal. apply IH, H.
    + injection H as H1 H2. congruence.
    + injection H as H1 H2. congruence.
    + injection H as H1 H2. subst. f_equal. apply IH, H2.
Qed.

Lemma append_char_inj (q : ascii) (a : string) :
  forall b, (a ++ String q EmptyString)%string = (b ++ String q EmptyString)%string ->
            a = b.
Proof.
  induction a as [|c a IH]; intros [|d b]; simpl; intros H.
  - reflexivity.
  - injection H as _ H. destruct b; discriminate.
  - injection H as _ H. destruct a; discriminate.
  - injection H as -> H. f_equal. apply IH, H.
Qed.

(** X12. Two different texts are never written as the same CSV field:
    the quoting of [csv.writer] loses nothing. *)
Theorem csv_field_distinct :
  forall a b : string, a <> b -> csv_field a <> csv_field b.
Proof.
  intros a b Hne H. apply Hne. unfold csv_field in H.
  destruct (has_special a) eqn:Ha; destruct (has_special b) eqn:Hb.
  - injection H as H. apply append_char_inj in H. apply double_quotes_inj, H.
  - subst b. cbn [has_special] in Hb.
    change (special dquote) with true in Hb. discriminate.
  - subst a. cbn [has_special] in Ha.
    change (special dquote) with true in Ha. discriminate.
  - exact H.
Qed.

Lemma csv_field_distinct_witness :
  "miss, long"%string <> "miss; long"%string /\
  csv_field "miss, long" <> csv_field "miss; long".
Proof.
  assert (H : "miss, long"%string <> "miss; long"%string) by discriminate.
  split; [exact H|]. apply (csv_field_distinct _ _ H).
Defined.

(** ** [create_game] and [list_games] *)



(** ** The allowed origins *)

Lemma split_on_cons (sep : ascii) (s : string) :
  exists piece pieces, split_on sep s = piece :: pieces.
Proof.
  induction s as [|c s [piece [pieces IH]]]; simpl; [eauto|].
  destruct (Ascii.eqb c sep); [eauto|]. rewrite IH. eauto.
Qed.

Lemma join_cons (sep a b : string) (l : list string) :
  join sep (a :: b :: l) = (a ++ sep ++ join sep (b :: l))%string.
Proof. reflexivity. Qed.

(** Joining the pieces with the separator gives the string back. *)
Lemma join_split_on (sep : ascii) (s : string) :
  join (String sep EmptyString) (split_on sep s) = s.
Proof.
  induction s as [|c s IH]; [reflexivity|]. cbn [split_on].
  destruct (split_on_cons sep s) as [piece [pieces E]]. rewrite E in *.
  destruct (Ascii.eqb_spec c sep) as [->|NE].
  - rewrite join_cons, IH. reflexivity.
  - destruct pieces as [|p' pieces].
    + simpl in *. now rewrite IH.
    + rewrite join_cons. rewrite join_cons in IH.
      change (String c piece ++ String sep EmptyString ++
              join (String sep EmptyString) (p' :: pieces))%string
        with (String c (piece ++ String sep EmptyString ++
                        join (String sep EmptyString) (p' :: pieces)))%string.
      now rewrite IH.
Qed.

(** No piece holds the separator. *)
Lemma split_on_pieces (sep : ascii) (s : string) :
  Forall (fun piece => has_char sep piece = false) (split_on sep s).
Proof.
  induction s as [|c s IH]; cbn [split_on]; [repeat constructor|].
  destruct (Ascii.eqb c sep) eqn:E; [constructor; [reflexivity|exact IH]|].
  destruct (split_on sep s) as [|piece pieces]; [repeat constructor; simpl; now rewrite E|].
  inversion IH as [|x l Hp Hl]; subst.
  constructor; [simpl; now rewrite E, Hp|exact Hl].
Qed.

Lemma split_on_commas (n : nat) :
  split_on comma (commas n) = repeat EmptyString (S n).
Proof.
  induction n as [|n IH]; [reflexivity|].
  cbn [commas split_on]. rewrite Ascii.eqb_refl, IH. reflexivity.
Qed.

(** X14. When [CORS_ORIGINS] is not set, is empty or holds nothing but
    commas, the allowed origins are exactly the two local defaults
    ([str.strip] gives the empty string on the empty string). *)
Theorem allow_origins_default :
  forall strip : string -> string,
    strip EmptyString = EmptyString ->
    allow_origins strip None = default_origins /\
    forall n, allow_origins strip (Some (commas n)) = default_origins.
Proof.
  intros strip Hstrip.
  assert (H : forall n,
    filter (fun origin => truthy (strip origin)) (repeat EmptyString n) = []).
  { induction n as [|n IH]; simpl; [reflexivity|]. now rewrite Hstrip. }
  unfold allow_origins, extra_origins. split.
  - simpl. now rewrite Hstrip.
  - intros n. rewrite split_on_commas, H. reflexivity.
Qed.

Lemma allow_origins_default_witness :
  (fun s : string => s) EmptyString = EmptyString /\
  allow_origins (fun s => s) None = default_origins /\
  forall n, allow_origins (fun s => s) (Some (commas n)) = default_origins.
Proof.
  split; [reflexivity|].
  apply (allow_origins_default (fun s => s)). reflexivity.
Defined.

(** X15. The allowed origins always start with the two local defaults.
    The value of [CORS_ORIGINS] is cut at its commas into pieces that hold
    no comma and that give the value back when joined with commas; every
    further origin is the stripped form of one of these pieces and is not
    empty, and there are no more of them than pieces. *)
Theorem allow_origins_extra :
  forall (strip : string -> string) (env : option string),
    let value := match env with Some v => v | None => EmptyString end in
    let pieces := split_on comma value in
    exists extras : list string,
      allow_origins strip env = default_origins ++ extras /\
      join (String comma EmptyString) pieces = value /\
      Forall (fun piece => has_char comma piece = false) pieces /\
      Forall (fun origin =>
                origin <> EmptyString /\
                exists piece, In piece pieces /\ origin = strip piece) extras /\
      (List.length extras <= List.length pieces)%nat.
Proof.
  intros strip env value pieces.
  exists (extra_origins strip env).
  split; [reflexivity|]. split; [apply join_split_on|].
  split; [apply split_on_pieces|].
  unfold extra_origins. fold value. fold pieces. split.
  - apply Forall_forall. intros origin Ho. apply in_map_iff in Ho.
    destruct Ho as [piece [<- Hp]]. apply filter_In in Hp.
    destruct Hp as [Hin Ht]. split; [|eauto].
    intros E. rewrite E in Ht. discriminate.
  - rewrite length_map. apply filter_length_le.
Qed.

(** A value with blanks and an empty piece, with a [strip] that removes
    the blanks around a piece of this value. *)
Example allow_origins_staging :
  allow_origins
    (fun s => if String.eqb s " https://b.example " then "https://b.example"
              else if String.eqb s " " then EmptyString else s)%string
    (Some "https://a.example, https://b.example , ,"%string) =
  [ "http://localhost:5173"; "http://127.0.0.1:5173";
    "https://a.example"; "https://b.example" ]%string.
Proof. reflexivity. Qed.

(** ** Requests that race on a possession *)


